(** * raftcpp: the follower-side log manager

    A shallow embedding of [src/log_manager/non_leader_log_manager.cc]
    (class [NonLeaderLogManager]) and the properties of its operations
    [Push], [CommitLogs] and [DoPullLogs].

    The C++ members become the fields of a record, the methods become
    computations in a small state-and-error monad.  Calls that leave the
    class (the state machine's [OnApply], the rpc client's [async_call],
    the timer manager, the logger) are recorded, in program order, in a
    trace of effects.  Beside the program state the monad keeps a ghost
    log of every access to the three members that [mutex_] is meant to
    protect, together with whether the mutex was held at that moment. *)

From stdpp Require Import gmap strings list.
From Stdlib Require Import ZArith Lia.

Local Open Scope Z_scope.

(** ** Data model *)

(** [int64_t]: the largest value.  Signed overflow is undefined behaviour
    in C++, so the increment below is partial instead of wrapping. *)
Definition INT64_MAX : Z := 9223372036854775807.

(** Modelled from the spec: [LogEntry] is declared in [log_entry.h], which
    is not part of the source; the three fields are the ones the manager
    reads ([log_index], [term_id.getTerm()], [data]). *)
Record LogEntry : Type := mkLogEntry {
  log_index : Z;     (* int64_t *)
  term_id : Z;       (* int32_t, read through getTerm() *)
  data : string      (* payload handed to the state machine *)
}.

(** Modelled from the spec: [NodeID] is declared elsewhere; the manager only
    ever sends its binary form. *)
Record NodeID : Type := mkNodeID { ToBinary : string }.

(** A handle to the leader, as returned by [get_leader_rpc_client_func_];
    [nullptr] is [None]. *)
Definition rpc_client : Type := nat.

(** The constants of [RaftcppConstants] that this file uses. *)
Inductive timer_name : Type := TIMER_PULL_LOGS.
Inductive rpc_name : Type := REQUEST_PULL_LOGS.

(** The members of [NonLeaderLogManager].  The callbacks
    [is_leader_func_] and [get_leader_rpc_client_func_] are not state: what
    they answer is an input of the method that calls them. *)
Record NonLeaderLogManager : Type := mkManager {
  this_node_id_ : NodeID;
  all_log_entries_ : gmap Z LogEntry;
  next_index_ : Z;
  committed_log_index_ : Z;
  is_running_ : bool;          (* std::atomic<bool> *)
  mutex_ : bool                (* std::mutex: true while locked *)
}.

(** What [RAFTCPP_LOG] is given. *)
Inductive log_record : Type :=
| LogDuplicated (index : Z)
| LogLack (index : Z)
| LogConflict (index : Z)
| LogNoLeaderClient (is_leader : bool).

(** Calls that leave the class. *)
Inductive effect : Type :=
| OnApply (payload : string)
| AsyncCall (client : rpc_client) (name : rpc_name)
            (this_node_id_str : string) (next_index : Z)
| RegisterTimer (name : timer_name)
| StartTimer (name : timer_name) (period : Z)
| StopTimer (name : timer_name)
| Log (r : log_record).

(** The members the spec places under the lock. *)
Inductive guarded_member : Type :=
| M_all_log_entries
| M_next_index
| M_committed_log_index.

(** One access to a guarded member, and whether [mutex_] was locked. *)
Record access : Type := mkAccess {
  acc_member : guarded_member;
  acc_locked : bool
}.

Record World : Type := mkWorld {
  self : NonLeaderLogManager;
  trace : list effect;        (* effects so far, oldest first *)
  accesses : list access      (* ghost: guarded accesses so far *)
}.

(** ** The monad *)

Inductive outcome (A : Type) : Type :=
| Ret (a : A) (w : World)    (* normal return *)
| Fatal                      (* a RAFTCPP_CHECK failed: the process aborts *)
| Undefined                  (* undefined behaviour was reached *)
| OutOfFuel.                 (* a loop bound of the model was hit; never happens,
                                see [Push_fuel] and [CommitLogs_fuel] *)
Arguments Ret {A} a w.
Arguments Fatal {A}.
Arguments Undefined {A}.
Arguments OutOfFuel {A}.

Definition M (A : Type) : Type := World -> outcome A.

#[global] Instance M_ret : MRet M := fun A a w => Ret a w.

#[global] Instance M_bind : MBind M := fun A B f m w =>
  match m w with
  | Ret a w' => f a w'
  | Fatal => Fatal
  | Undefined => Undefined
  | OutOfFuel => OutOfFuel
  end.

Definition fatal {A} : M A := fun _ => Fatal.
Definition undefined {A} : M A := fun _ => Undefined.
Definition out_of_fuel {A} : M A := fun _ => OutOfFuel.

Definition when (b : bool) (m : M unit) : M unit :=
  if b then m else mret tt.

(** *** Updating the world *)

Definition with_self (f : NonLeaderLogManager -> NonLeaderLogManager)
    (w : World) : World :=
  {| self := f (self w); trace := trace w; accesses := accesses w |}.

Definition gets {A} (f : World -> A) : M A := fun w => Ret (f w) w.
Definition modify (f : World -> World) : M unit := fun w => Ret tt (f w).

Definition emit (e : effect) : M unit := fun w =>
  Ret tt {| self := self w; trace := trace w ++ [e]; accesses := accesses w |}.

(** Ghost: note an access to member [g] under the current lock state. *)
Definition touch (g : guarded_member) : M unit := fun w =>
  Ret tt {| self := self w; trace := trace w;
            accesses := accesses w ++ [mkAccess g (mutex_ (self w))] |}.

Definition set_entries (m : gmap Z LogEntry) (s : NonLeaderLogManager) :=
  {| this_node_id_ := this_node_id_ s; all_log_entries_ := m;
     next_index_ := next_index_ s;
     committed_log_index_ := committed_log_index_ s;
     is_running_ := is_running_ s; mutex_ := mutex_ s |}.

Definition set_next (n : Z) (s : NonLeaderLogManager) :=
  {| this_node_id_ := this_node_id_ s;
     all_log_entries_ := all_log_entries_ s; next_index_ := n;
     committed_log_index_ := committed_log_index_ s;
     is_running_ := is_running_ s; mutex_ := mutex_ s |}.

Definition set_committed (c : Z) (s : NonLeaderLogManager) :=
  {| this_node_id_ := this_node_id_ s;
     all_log_entries_ := all_log_entries_ s; next_index_ := next_index_ s;
     committed_log_index_ := c;
     is_running_ := is_running_ s; mutex_ := mutex_ s |}.

Definition set_running (b : bool) (s : NonLeaderLogManager) :=
  {| this_node_id_ := this_node_id_ s;
     all_log_entries_ := all_log_entries_ s; next_index_ := next_index_ s;
     committed_log_index_ := committed_log_index_ s;
     is_running_ := b; mutex_ := mutex_ s |}.

Definition set_mutex (b : bool) (s : NonLeaderLogManager) :=
  {| this_node_id_ := this_node_id_ s;
     all_log_entries_ := all_log_entries_ s; next_index_ := next_index_ s;
     committed_log_index_ := committed_log_index_ s;
     is_running_ := is_running_ s; mutex_ := b |}.

(** *** Primitive operations on the members *)

(** [all_log_entries_.find(i)]; [None] is [end()]. *)
Definition entries_find (i : Z) : M (option LogEntry) :=
  touch M_all_log_entries ;;
  gets (fun w => all_log_entries_ (self w) !! i).

(** [all_log_entries_.count(i)]. *)
Definition entries_count (i : Z) : M Z :=
  it ← entries_find i;
  mret (match it with Some _ => 1 | None => 0 end).

(** [all_log_entries_.erase(it)] for the iterator found at [i]. *)
Definition entries_erase (i : Z) : M unit :=
  touch M_all_log_entries ;;
  modify (with_self (fun s => set_entries (delete i (all_log_entries_ s)) s)).

(** [all_log_entries_[i] = e]. *)
Definition entries_assign (i : Z) (e : LogEntry) : M unit :=
  touch M_all_log_entries ;;
  modify (with_self (fun s => set_entries (<[i := e]> (all_log_entries_ s)) s)).

Definition read_next_index : M Z :=
  touch M_next_index ;; gets (fun w => next_index_ (self w)).

Definition write_next_index (n : Z) : M unit :=
  touch M_next_index ;; modify (with_self (set_next n)).

Definition read_committed_log_index : M Z :=
  touch M_committed_log_index ;;
  gets (fun w => committed_log_index_ (self w)).

Definition write_committed_log_index (c : Z) : M unit :=
  touch M_committed_log_index ;; modify (with_self (set_committed c)).

(** [is_running_.store(b)]: atomic, not a guarded member. *)
Definition store_is_running (b : bool) : M unit :=
  modify (with_self (set_running b)).

(** [x + 1] and [++x] on [int64_t]. *)
Definition succ64 (x : Z) : M Z :=
  if x <? INT64_MAX then mret (x + 1) else undefined.

(** Modelled from the spec: [RAFTCPP_CHECK] is a macro of [logging.h],
    which is not part of the source; a failed check is a process-fatal
    assertion. *)
Definition RAFTCPP_CHECK (b : bool) : M unit :=
  if b then mret tt else fatal.

(** [std::lock_guard<std::mutex> lock(mutex_)] around [body]: the mutex is
    taken on entry and released on every return of the scope.  Locking a
    [std::mutex] that the running thread already owns is undefined. *)
Definition lock_mutex : M unit := fun w =>
  if mutex_ (self w) then Undefined
  else Ret tt (with_self (set_mutex true) w).

Definition unlock_mutex : M unit := modify (with_self (set_mutex false)).

Definition lock_guard {A} (body : M A) : M A :=
  lock_mutex ;; r ← body; unlock_mutex ;; mret r.

(** Modelled from the spec: the value-initialised [LogEntry] that
    [operator[]] would insert for a missing key ([log_entry.h] is not part
    of the source).  [CommitLogs] subscripts only keys it has just checked
    to be present, see [CommitLogs_loop]. *)
Definition LogEntry_default : LogEntry := mkLogEntry 0 0 EmptyString.

(** [all_log_entries_[i]] used as a value. *)
Definition entries_subscript (i : Z) : M LogEntry :=
  it ← entries_find i;
  match it with
  | Some e => mret e
  | None => entries_assign i LogEntry_default ;; mret LogEntry_default
  end.

(** ** The methods *)

(** The constructor.  The initial values of [next_index_] and
    [committed_log_index_] are default member initialisers of the header,
    which is not part of the source: they are arguments here. *)
Definition NonLeaderLogManager_new (this_node_id : NodeID)
    (next_index0 committed_log_index0 : Z) : World :=
  {| self := {| this_node_id_ := this_node_id;
                all_log_entries_ := ∅;
                next_index_ := next_index0;
                committed_log_index_ := committed_log_index0;
                is_running_ := false;
                mutex_ := false |};
     trace := [RegisterTimer TIMER_PULL_LOGS];
     accesses := [] |}.

Definition Run : M unit := emit (StartTimer TIMER_PULL_LOGS 1000).

Definition Stop : M unit := emit (StopTimer TIMER_PULL_LOGS).

(** The [for] loop of [CommitLogs], entered with the loop variable at
    [index]; the bound [committed_log_index_] is re-read at every test. *)
Fixpoint CommitLogs_loop (fuel : nat) (index : Z) : M unit :=
  match fuel with
  | O => out_of_fuel
  | S fuel' =>
      bound ← read_committed_log_index;
      if index <=? bound then
        n ← entries_count index;
        RAFTCPP_CHECK (n =? 1) ;;
        e ← entries_subscript index;
        emit (OnApply (data e)) ;;
        index' ← succ64 index;
        CommitLogs_loop fuel' index'
      else mret tt
  end.

Definition CommitLogs (committed_log_index : Z) : M unit :=
  current ← read_committed_log_index;
  if committed_log_index <=? current then mret tt
  else
    let last_committed_log_index := committed_log_index in
    write_committed_log_index committed_log_index ;;
    first ← succ64 last_committed_log_index;
    CommitLogs_loop (S (Z.to_nat (committed_log_index + 1 - first))) first.

(** The [while] loop of [Push]: erase [index], [index + 1], ... as long as
    the key is found. *)
Fixpoint Push_erase_loop (fuel : nat) (index : Z) : M unit :=
  match fuel with
  | O => out_of_fuel
  | S fuel' =>
      it ← entries_find index;
      match it with
      | Some _ =>
          entries_erase index ;;
          index' ← succ64 index;
          Push_erase_loop fuel' index'
      | None => mret tt
      end
  end.

(** [it == end() || it->second.term_id.getTerm() != term] *)
Definition absent_or_other_term (it : option LogEntry) (term : Z) : bool :=
  match it with
  | None => true
  | Some e => negb (term_id e =? term)
  end.

(** [it != end() && it->second.term_id.getTerm() != term] *)
Definition present_with_other_term (it : option LogEntry) (term : Z) : bool :=
  match it with
  | None => false
  | Some e => negb (term_id e =? term)
  end.

Definition Push (committed_log_index pre_log_term : Z) (log_entry : LogEntry)
    : M unit :=
  RAFTCPP_CHECK (0 <=? log_index log_entry) ;;
  n ← entries_count (log_index log_entry);
  when (0 <? n) (emit (Log (LogDuplicated (log_index log_entry)))) ;;
  let pre_log_index := log_index log_entry - 1 in
  when (0 <? log_index log_entry)
    (it ← entries_find pre_log_index;
     when (absent_or_other_term it pre_log_term)
       (write_next_index pre_log_index ;;
        emit (Log (LogLack pre_log_index)))) ;;
  let req_term := term_id log_entry in
  it ← entries_find (log_index log_entry);
  when (present_with_other_term it req_term)
    (fuel ← gets (fun w => S (size (all_log_entries_ (self w))));
     Push_erase_loop fuel (log_index log_entry) ;;
     write_next_index (log_index log_entry) ;;
     next ← read_next_index;
     emit (Log (LogConflict next))) ;;
  entries_assign (log_index log_entry) log_entry ;;
  next ← read_next_index;
  when (next <=? log_index log_entry)
    (next' ← succ64 (log_index log_entry);
     write_next_index next') ;;
  CommitLogs committed_log_index.

(** [DoPullLogs] calls two callbacks; what they return at this call is
    given as [leader_rpc_client] ([None] for [nullptr]) and [is_leader].
    The completion handler passed to [async_call] has an empty body. *)
Definition DoPullLogs (leader_rpc_client : option rpc_client)
    (is_leader : bool) : M unit :=
  lock_guard
    (match leader_rpc_client with
     | None =>
         emit (Log (LogNoLeaderClient is_leader)) ;;
         store_is_running false
     | Some client =>
         id ← gets (fun w => ToBinary (this_node_id_ (self w)));
         next ← read_next_index;
         emit (AsyncCall client REQUEST_PULL_LOGS id next)
     end).

(** ** Observations *)

(** The payloads handed to the state machine, in order. *)
Definition applied (tr : list effect) : list string :=
  omap (fun e => match e with OnApply d => Some d | _ => None end) tr.

(** The pull requests sent, in order. *)
Definition pulls (tr : list effect) : list (rpc_client * string * Z) :=
  omap (fun e => match e with
                 | AsyncCall c _ id n => Some (c, id, n)
                 | _ => None
                 end) tr.

(** The timers stopped, in order. *)
Definition timer_stops (tr : list effect) : list timer_name :=
  omap (fun e => match e with StopTimer t => Some t | _ => None end) tr.

(** ** Predicates and functions used to state the properties *)

(** The predecessor test of [Push] (lines 55-58) on the store [m]. *)
Definition gap (m : gmap Z LogEntry) (pre_log_term : Z) (e : LogEntry) : bool :=
  (0 <? log_index e) && absent_or_other_term (m !! (log_index e - 1)) pre_log_term.

(** The conflict test of [Push] (line 66) on the store [m]. *)
Definition conflict (m : gmap Z LogEntry) (e : LogEntry) : bool :=
  present_with_other_term (m !! log_index e) (term_id e).

(** [m] without the [k] keys [i], [i + 1], ..., [i + k - 1]. *)
Fixpoint erase_run (k : nat) (i : Z) (m : gmap Z LogEntry) : gmap Z LogEntry :=
  match k with
  | O => m
  | S k' => erase_run k' (i + 1) (delete i m)
  end.

(** The keys [i], ..., [i + k - 1] are present in [m] and [i + k] is not:
    the contiguous run that starts at [i] has length [k]. *)
Definition run_from (m : gmap Z LogEntry) (i : Z) (k : nat) : Prop :=
  (forall j, i <= j < i + Z.of_nat k -> is_Some (m !! j)) /\
  m !! (i + Z.of_nat k) = None.

(** Whether [Push] takes the final frontier-advance step (lines 78-80):
    steps 2 and 3 leave [next_index_] at most [log_index], otherwise the
    test is on the value [next] the call started with. *)
Definition advances (m : gmap Z LogEntry) (next pre_log_term : Z)
    (e : LogEntry) : bool :=
  gap m pre_log_term e || conflict m e || (next <=? log_index e).

Definition is_log (e : effect) : bool :=
  match e with Log _ => true | _ => false end.

(** ** Sequences of calls *)

Inductive call : Type :=
| CallPush (committed_log_index pre_log_term : Z) (log_entry : LogEntry)
| CallCommitLogs (committed_log_index : Z).

Definition run_call (c : call) : M unit :=
  match c with
  | CallPush ci pt e => Push ci pt e
  | CallCommitLogs ci => CommitLogs ci
  end.

Fixpoint run_calls (cs : list call) : M unit :=
  match cs with
  | [] => mret tt
  | c :: cs' => run_call c ;; run_calls cs'
  end.

(** The world a computation returns in, [w] itself if it does not return. *)
Definition after (m : M unit) (w : World) : World :=
  match m w with
  | Ret _ w' => w'
  | _ => w
  end.

(** ** Scenarios of the spec *)

Definition node1 : NodeID := mkNodeID "n1".

(** A manager just constructed, nothing committed yet. *)
Definition fresh : World := NonLeaderLogManager_new node1 0 (-1).

(** Healthy append: index 0, term 1, payload "x", committed index 0. *)
Definition entry_x : LogEntry := mkLogEntry 0 1 "x".
Definition w_one : World := after (Push 0 0 entry_x) fresh.

(** Gap detection: index 2, term 1 is pushed on top of index 0 alone. *)
Definition entry_gap : LogEntry := mkLogEntry 2 1 "z".
Definition w_gap : World := after (Push 0 1 entry_gap) w_one.

(** Conflict resolution: indices 0, 1, 2 at term 1, then index 1 at term 2. *)
Definition entry_y : LogEntry := mkLogEntry 1 1 "y".
Definition entry_z : LogEntry := mkLogEntry 2 1 "z".
Definition w_three : World :=
  after (Push 0 1 entry_z) (after (Push 0 1 entry_y) w_one).
Definition entry_new : LogEntry := mkLogEntry 1 2 "n".
Definition w_resolved : World := after (Push 0 1 entry_new) w_three.

(** ** Lock discipline *)

(** Every access of the list was made with [mutex_] free. *)
Definition unlocked (l : list access) : bool :=
  forallb (fun a => negb (acc_locked a)) l.

(** [m] started with [mutex_] free leaves it free, and every guarded
    access it makes is made with [mutex_] free. *)
Definition never_locks {A} (m : M A) : Prop :=
  forall w, mutex_ (self w) = false ->
    match m w with
    | Ret _ w' =>
        mutex_ (self w') = false /\
        exists l, accesses w' = accesses w ++ l /\ unlocked l = true
    | _ => True
    end.

(** The payloads stored at [lo], [lo + 1], ..., [lo + n - 1], if all of
    these keys are present. *)
Fixpoint payloads (m : gmap Z LogEntry) (lo : Z) (n : nat)
    : option (list string) :=
  match n with
  | O => Some []
  | S n' =>
      match m !! lo with
      | None => None
      | Some e => cons (data e) <$> payloads m (lo + 1) n'
      end
  end.

(** ** Sequences of method calls *)

(** A call of one of the methods, with what the callbacks answer where the
    method calls them. *)
Inductive method : Type :=
| MPush (committed_log_index pre_log_term : Z) (log_entry : LogEntry)
| MCommitLogs (committed_log_index : Z)
| MDoPullLogs (leader_rpc_client : option rpc_client) (is_leader : bool)
| MRun
| MStop.

Definition run_method (m : method) : M unit :=
  match m with
  | MPush ci pt e => Push ci pt e
  | MCommitLogs ci => CommitLogs ci
  | MDoPullLogs l b => DoPullLogs l b
  | MRun => Run
  | MStop => Stop
  end.

Fixpoint run_methods (ms : list method) : M unit :=
  match ms with
  | [] => mret tt
  | m :: ms' => run_method m ;; run_methods ms'
  end.

(** The commit indices a sequence of calls passes in. *)
Definition commit_args (ms : list method) : list Z :=
  omap (fun m => match m with
                 | MPush ci _ _ => Some ci
                 | MCommitLogs ci => Some ci
                 | _ => None
                 end) ms.

(** The leader clients handed to [DoPullLogs], in order. *)
Definition leader_clients (ms : list method) : list rpc_client :=
  omap (fun m => match m with
                 | MDoPullLogs (Some c) _ => Some c
                 | _ => None
                 end) ms.

(** The timer effects of the [Run] and [Stop] calls, in order. *)
Definition timer_calls (ms : list method) : list effect :=
  omap (fun m => match m with
                 | MRun => Some (StartTimer TIMER_PULL_LOGS 1000)
                 | MStop => Some (StopTimer TIMER_PULL_LOGS)
                 | _ => None
                 end) ms.

(** The timer effects of a trace, in order. *)
Definition timer_effects (tr : list effect) : list effect :=
  omap (fun e => match e with
                 | RegisterTimer _ | StartTimer _ _ | StopTimer _ => Some e
                 | _ => None
                 end) tr.

(** Whether the arguments of a call are in range for the [int64_t]
    increments: indices and commit indices below [INT64_MAX], indices not
    negative. *)
Definition method_in_range (m : method) : Prop :=
  match m with
  | MPush ci _ e => 0 <= log_index e < INT64_MAX /\ ci < INT64_MAX
  | MCommitLogs ci => ci < INT64_MAX
  | _ => True
  end.

(** ** Shapes of the store *)

(** Every stored key is a valid index below [INT64_MAX], and so is the
    frontier up to [INT64_MAX] itself. *)
Definition in_range (s : NonLeaderLogManager) : Prop :=
  map_Forall (fun j _ => 0 <= j < INT64_MAX) (all_log_entries_ s) /\
  next_index_ s <= INT64_MAX.

(** The store holds exactly the keys [0], ..., [n - 1] and the frontier is
    [n]. *)
Definition contiguous (s : NonLeaderLogManager) (n : Z) : Prop :=
  dom (all_log_entries_ s) = list_to_set (seqZ 0 n) /\
  next_index_ s = n.

(** The log records of one [Push] on the store [m], in program order. *)
Definition push_logs (m : gmap Z LogEntry) (pre_log_term : Z) (e : LogEntry)
    : list effect :=
  match m !! log_index e with
  | Some _ => [Log (LogDuplicated (log_index e))]
  | None => []
  end ++
  (if gap m pre_log_term e then [Log (LogLack (log_index e - 1))] else []) ++
  (if conflict m e then [Log (LogConflict (log_index e))] else []).

(** A run that uses every method once the manager is constructed. *)
Definition calls_demo : list method :=
  [MRun; MPush 0 0 entry_x; MDoPullLogs (Some 7%nat) false;
   MPush 1 1 entry_y; MDoPullLogs None true; MCommitLogs 0; MStop].
Definition w_demo : World := after (run_methods calls_demo) fresh.

(** Three pushes in index order. *)
Definition calls_in_order : list method :=
  [MPush 0 0 entry_x; MPush 0 1 entry_y; MPush 0 1 entry_z].

(** ** Symbolic execution *)

Ltac mrun :=
  cbv [entries_find entries_count entries_erase entries_assign
       entries_subscript read_next_index write_next_index
       read_committed_log_index write_committed_log_index store_is_running
       lock_mutex unlock_mutex lock_guard RAFTCPP_CHECK when emit
       touch gets modify mbind M_bind mret M_ret fatal undefined
       out_of_fuel with_self];
  cbn [self trace accesses all_log_entries_ next_index_ committed_log_index_
       is_running_ mutex_ this_node_id_ set_entries set_next set_committed
       set_running set_mutex].

(** ** Lemmas on the loops and on [Push] *)

(** What is stored after [k] consecutive keys were erased. *)
Lemma lookup_erase_run k : forall i (m : gmap Z LogEntry) j,
  erase_run k i m !! j =
  if decide (i <= j < i + Z.of_nat k) then None else m !! j.
Proof.
  induction k as [|k IH]; intros i m j; simpl erase_run.
  - case_decide; [lia | done].
  - rewrite IH. repeat case_decide; try lia; try done.
    + destruct (decide (i = j)) as [->|Hne]; [apply lookup_delete_eq | lia].
    + rewrite lookup_delete_ne; [done | lia].
Qed.

Lemma bind_run {A B} (m : M A) (f : A -> M B) w :
  (m ≫= f) w = match m w with
               | Ret a w' => f a w'
               | Fatal => Fatal
               | Undefined => Undefined
               | OutOfFuel => OutOfFuel
               end.
Proof. reflexivity. Qed.


Lemma succ64_run x w :
  succ64 x w = if x <? INT64_MAX then Ret (x + 1) w else Undefined.
Proof. unfold succ64. destruct (x <? INT64_MAX); reflexivity. Qed.

(** The erase loop with more fuel than stored entries: it stops at the
    first absent key, having erased the run before it, or it overflows past
    a stored key at [INT64_MAX] or above.  It never runs out of fuel. *)
Lemma Push_erase_loop_spec fuel : forall i w,
  (size (all_log_entries_ (self w)) < fuel)%nat ->
  match Push_erase_loop fuel i w with
  | Ret _ w' =>
      exists k : nat,
        run_from (all_log_entries_ (self w)) i k /\
        self w' = set_entries (erase_run k i (all_log_entries_ (self w))) (self w) /\
        trace w' = trace w
  | Undefined =>
      exists j, INT64_MAX <= j /\ i <= j /\ is_Some (all_log_entries_ (self w) !! j)
  | Fatal | OutOfFuel => False
  end.
Proof.
  induction fuel as [|fuel IH]; intros i w Hsz; [lia|].
  cbn [Push_erase_loop]. rewrite bind_run. mrun.
  destruct (all_log_entries_ (self w) !! i) as [e0|] eqn:Hi.
  - mrun. rewrite succ64_run.
    destruct (i <? INT64_MAX) eqn:Hmax.
    + apply Z.ltb_lt in Hmax.
      match goal with |- context [Push_erase_loop fuel (i + 1) ?w1] =>
        specialize (IH (i + 1) w1); set (w0 := w1) in * end.
      assert (Hsz' : (size (all_log_entries_ (self w0)) < fuel)%nat).
      { subst w0. cbn [self all_log_entries_ set_entries].
        rewrite map_size_delete, Hi.
        destruct (size (all_log_entries_ (self w))) eqn:Hn; [|simpl; lia].
        apply map_size_empty_iff in Hn. rewrite Hn, lookup_empty in Hi. done. }
      specialize (IH Hsz').
      destruct (Push_erase_loop fuel (i + 1) w0) as [[] w'| | |]; try done.
      * destruct IH as (k & [Hrun Hend] & Hself & Htr).
        subst w0. cbn in *.
        exists (S k). repeat split.
        -- intros j Hj. destruct (decide (j = i)) as [->|Hne]; [eauto|].
           specialize (Hrun j ltac:(lia)). rewrite lookup_delete_ne in Hrun by lia. done.
        -- replace (i + Z.of_nat (S k)) with (i + 1 + Z.of_nat k) by lia.
           rewrite lookup_delete_ne in Hend by lia. done.
        -- rewrite Hself. reflexivity.
        -- done.
      * destruct IH as (j & Hj & Hij & Hs). subst w0. cbn in *.
        exists j. repeat split; [done | lia |].
        rewrite lookup_delete_ne in Hs by lia. done.
    + apply Z.ltb_ge in Hmax. exists i. repeat split; [done | lia | eauto].
  - exists 0%nat. split; [split|split].
    + intros j Hj. lia.
    + rewrite Z.add_0_r. done.
    + cbn. by destruct (self w).
    + done.
Qed.


(** [CommitLogs]: the committed index becomes the larger of the two and
    nothing else happens.  The loop is entered at [c + 1] with bound [c]. *)
Lemma CommitLogs_spec c w :
  match CommitLogs c w with
  | Ret _ w' =>
      self w' = (if c <=? committed_log_index_ (self w) then self w
                 else set_committed c (self w)) /\
      trace w' = trace w /\
      (committed_log_index_ (self w) < c -> c < INT64_MAX)
  | Undefined => committed_log_index_ (self w) < c /\ INT64_MAX <= c
  | Fatal | OutOfFuel => False
  end.
Proof.
  unfold CommitLogs. mrun.
  destruct (c <=? committed_log_index_ (self w)) eqn:Hle.
  - apply Z.leb_le in Hle. repeat split; try done; lia.
  - apply Z.leb_gt in Hle. mrun. rewrite succ64_run.
    destruct (c <? INT64_MAX) eqn:Hmax.
    + apply Z.ltb_lt in Hmax. cbn [CommitLogs_loop]. mrun.
      replace (c + 1 <=? c) with false by (symmetry; apply Z.leb_gt; lia).
      done.
    + apply Z.ltb_ge in Hmax. done.
Qed.

Ltac erase_step :=
  match goal with
  | |- context [Push_erase_loop ?f ?i ?w0] =>
      let Hloop := fresh "Hloop" in
      pose proof (Push_erase_loop_spec f i w0
                    ltac:(apply Nat.lt_succ_diag_r)) as Hloop;
      cbn [self all_log_entries_ set_next trace] in Hloop;
      destruct (Push_erase_loop f i w0) as [[] ?w| | |]
  end.

Ltac commit_step :=
  match goal with
  | |- context [CommitLogs ?c ?w0] =>
      let Hc := fresh "Hcommit" in
      pose proof (CommitLogs_spec c w0) as Hc;
      cbn [self trace committed_log_index_ set_next set_entries] in Hc;
      destruct (CommitLogs c w0) as [[] ?w| | |]
  end.

(** [Push], case by case of its outcome.  [k] is the length of the erased
    run, [adv] tells whether line 79 is reached. *)
Lemma Push_spec c p e w :
  let m := all_log_entries_ (self w) in
  let i := log_index e in
  let adv := advances m (next_index_ (self w)) p e in
  match Push c p e w with
  | Ret _ w' =>
      0 <= i /\
      (exists k : nat,
         (if conflict m e then run_from m i k else k = 0%nat) /\
         all_log_entries_ (self w') = <[i := e]> (erase_run k i m)) /\
      next_index_ (self w') = (if adv then i + 1 else next_index_ (self w)) /\
      (adv = true -> i < INT64_MAX) /\
      committed_log_index_ (self w') = Z.max c (committed_log_index_ (self w)) /\
      (committed_log_index_ (self w) < c -> c < INT64_MAX) /\
      this_node_id_ (self w') = this_node_id_ (self w) /\
      is_running_ (self w') = is_running_ (self w) /\
      mutex_ (self w') = mutex_ (self w) /\
      exists l, trace w' = trace w ++ l /\ forallb is_log l = true
  | Fatal => i < 0
  | Undefined =>
      0 <= i /\
      ((conflict m e = true /\
        exists j, INT64_MAX <= j /\ i <= j /\ is_Some (m !! j)) \/
       (adv = true /\ INT64_MAX <= i) \/
       (committed_log_index_ (self w) < c /\ INT64_MAX <= c))
  | OutOfFuel => False
  end.
Proof.
  intros m i adv. unfold Push. fold i. mrun.
  destruct (0 <=? i) eqn:Hi0; [apply Z.leb_le in Hi0 | apply Z.leb_gt in Hi0; done].
  mrun. fold m.
  assert (Hadv : adv = gap m p e || conflict m e || (next_index_ (self w) <=? i)) by done.
  unfold gap, conflict in *. fold i in Hadv |- *.
  destruct (m !! i) as [e0|] eqn:Hi;
    [change (0 <? 1) with true | change (0 <? 0) with false]; mrun;
  (destruct (0 <? i) eqn:Hpos; mrun; fold m;
   [destruct (absent_or_other_term (m !! (i - 1)) p) eqn:Hgap; mrun; fold m|]);
  rewrite ?Hi; cbn [present_with_other_term] in *;
  try (destruct (negb (term_id e0 =? term_id e)) eqn:Hconf; mrun; fold m;
       [erase_step;
        [destruct Hloop as (k & Hrun & Hself & Htr); mrun;
         rewrite ?Hself, ?Htr; mrun
        |done
        |destruct Hloop as (j & Hj1 & Hj2 & Hj3); split; [done|left; eauto]
        |done]|]).
  all: mrun.
  all: destruct (next_index_ (self w) <=? i) eqn:Hn0;
       rewrite ?Hn0 in Hadv;
       [apply Z.leb_le in Hn0 | apply Z.leb_gt in Hn0].
  all: try match goal with
       | |- context [if ?a <=? ?b then _ else _] =>
           destruct (a <=? b) eqn:Hn;
           [apply Z.leb_le in Hn | apply Z.leb_gt in Hn]
       end; mrun; rewrite ?succ64_run;
       try (destruct (_ <? INT64_MAX) eqn:Hmax;
            [apply Z.ltb_lt in Hmax | apply Z.ltb_ge in Hmax]; mrun).
  all: try commit_step.
  all: rewrite ?Hpos, ?Hgap in Hadv; simpl in Hadv.
  all: try (exfalso; lia).
  all: try (split; [done|]; auto; fail).
  all: try (split; [done|]; right; right; done).
  all: destruct Hcommit as (Hs & Ht & Hb); rewrite ?Hs, ?Ht; clear Hs Ht;
       rewrite ?Hadv;
       (destruct (c <=? committed_log_index_ (self w)) eqn:Hc;
        [apply Z.leb_le in Hc | apply Z.leb_gt in Hc]); mrun.
  all: split; [done|].
  all: split;
       [first [exists k; split; [exact Hrun | reflexivity]
              | exists 0%nat; split; reflexivity]|].
  all: repeat (split; [first [reflexivity | lia | done]|]).
  all: first [ exists []; rewrite app_nil_r; done
             | eexists; split; [rewrite <- ?app_assoc; reflexivity | reflexivity] ].
Qed.

(** ** The loop of [CommitLogs], whatever index it is entered at *)

(** Entered at [index], the loop applies the payloads stored at [index],
    ..., [committed_log_index_] in this order and aborts at the first key
    that is missing. *)
Lemma CommitLogs_loop_spec fuel : forall index w,
  (Z.to_nat (committed_log_index_ (self w) + 1 - index) < fuel)%nat ->
  match CommitLogs_loop fuel index w with
  | Ret _ w' =>
      exists ds,
        payloads (all_log_entries_ (self w)) index
          (Z.to_nat (committed_log_index_ (self w) + 1 - index)) = Some ds /\
        self w' = self w /\
        trace w' = trace w ++ (OnApply <$> ds)
  | Fatal =>
      payloads (all_log_entries_ (self w)) index
        (Z.to_nat (committed_log_index_ (self w) + 1 - index)) = None
  | Undefined =>
      index <= committed_log_index_ (self w) /\
      INT64_MAX <= committed_log_index_ (self w)
  | OutOfFuel => False
  end.
Proof.
  induction fuel as [|fuel IH]; intros index w Hfuel; [lia|].
  cbn [CommitLogs_loop]. mrun.
  destruct (index <=? committed_log_index_ (self w)) eqn:Hle.
  - apply Z.leb_le in Hle.
    replace (Z.to_nat (committed_log_index_ (self w) + 1 - index))
      with (S (Z.to_nat (committed_log_index_ (self w) + 1 - (index + 1))))
      in * by lia.
    cbn [payloads]. mrun.
    destruct (all_log_entries_ (self w) !! index) as [e|] eqn:Hi.
    + change (1 =? 1) with true. mrun. rewrite Hi. mrun. rewrite succ64_run.
      destruct (index <? INT64_MAX) eqn:Hmax.
      * match goal with |- context [CommitLogs_loop fuel (index + 1) ?w1] =>
          specialize (IH (index + 1) w1 ltac:(cbn [self]; lia));
          cbn [self trace] in IH;
          destruct (CommitLogs_loop fuel (index + 1) w1) as [[] w'| | |]
        end; try done.
        -- destruct IH as (ds & -> & Hs & Ht). exists (data e :: ds).
           rewrite Ht, <- app_assoc. done.
        -- rewrite IH. done.
        -- split; lia.
      * apply Z.ltb_ge in Hmax. split; lia.
    + change (0 =? 1) with false. mrun. done.
  - apply Z.leb_gt in Hle.
    replace (Z.to_nat (committed_log_index_ (self w) + 1 - index))
      with 0%nat by lia.
    exists []. cbn. rewrite app_nil_r. done.
Qed.

(** ** Consequences of the specifications *)

Ltac push_inv H :=
  match type of H with
  | Push ?c ?p ?e ?w = Ret _ ?w' =>
      let S := fresh "S" in
      pose proof (Push_spec c p e w) as S; rewrite H in S; cbv zeta in S
  end.

(** [Push] returns whenever no [int64_t] computation can overflow. *)
Lemma Push_returns c p e w :
  0 <= log_index e < INT64_MAX ->
  c < INT64_MAX ->
  (forall j, is_Some (all_log_entries_ (self w) !! j) -> j < INT64_MAX) ->
  exists w', Push c p e w = Ret tt w'.
Proof.
  intros Hi Hc Hkeys. pose proof (Push_spec c p e w) as S. cbv zeta in S.
  destruct (Push c p e w) as [[] w'| | |]; [eauto | lia | | done].
  destruct S as (_ & [(_ & j & Hj & _ & Hs) | [(_ & ?) | (_ & ?)]]); try lia.
  apply Hkeys in Hs. lia.
Qed.


Lemma applied_logs l : forallb is_log l = true -> applied l = [].
Proof.
  induction l as [|[] l IH]; cbn; try done. 
Qed.

(** The check inside the loop of [CommitLogs] is never reached. *)
Lemma CommitLogs_never_fatal c w : CommitLogs c w <> Fatal.
Proof.
  pose proof (CommitLogs_spec c w) as S. destruct (CommitLogs c w); done.
Qed.

(** No call of [CommitLogs] reaches the state machine. *)
Lemma CommitLogs_applies_nothing c w w' :
  CommitLogs c w = Ret tt w' -> trace w' = trace w.
Proof.
  intros H. pose proof (CommitLogs_spec c w) as S. rewrite H in S. tauto.
Qed.

(** ... and so no call of [Push] does. *)
Lemma Push_applies_nothing c p e w w' :
  Push c p e w = Ret tt w' -> applied (trace w') = applied (trace w).
Proof.
  intros H. pose proof (Push_spec c p e w) as S. rewrite H in S. cbv zeta in S.
  destruct S as (_ & _ & _ & _ & _ & _ & _ & _ & _ & l & -> & Hl).
  unfold applied at 1. rewrite omap_app. fold (applied (trace w)) (applied l).
  rewrite (applied_logs l Hl). apply app_nil_r.
Qed.

Lemma run_call_committed c w w' :
  run_call c w = Ret tt w' ->
  committed_log_index_ (self w) <= committed_log_index_ (self w').
Proof.
  destruct c as [ci pt e|ci]; cbn [run_call]; intros H.
  - pose proof (Push_spec ci pt e w) as S. rewrite H in S. cbv zeta in S.
    destruct S as (_ & _ & _ & _ & -> & _). lia.
  - pose proof (CommitLogs_spec ci w) as S. rewrite H in S.
    destruct S as (-> & _).
    destruct (ci <=? committed_log_index_ (self w)) eqn:Hc; cbn; [lia|].
    apply Z.leb_gt in Hc. lia.
Qed.


(** ** [Push] never takes the lock *)

Lemma never_locks_ret {A} (a : A) : never_locks (mret a).
Proof. intros w Hw. split; [done|]. exists []. by rewrite app_nil_r. Qed.

Lemma never_locks_bind {A B} (m : M A) (f : A -> M B) :
  never_locks m -> (forall a, never_locks (f a)) -> never_locks (m ≫= f).
Proof.
  intros Hm Hf w Hw. specialize (Hm w Hw). rewrite bind_run.
  destruct (m w) as [a w1| | |]; try done.
  destruct Hm as (Hw1 & l1 & Hl1 & Hu1).
  specialize (Hf a w1 Hw1). destruct (f a w1) as [b w2| | |]; try done.
  destruct Hf as (Hw2 & l2 & Hl2 & Hu2). split; [done|].
  exists (l1 ++ l2). rewrite Hl2, Hl1, app_assoc. split; [done|].
  unfold unlocked in *. rewrite forallb_app, Hu1, Hu2. done.
Qed.

Lemma never_locks_touch g : never_locks (touch g).
Proof.
  intros w Hw. cbn. split; [done|]. eexists. split; [done|].
  cbn. rewrite Hw. done.
Qed.

Lemma never_locks_gets {A} (f : World -> A) : never_locks (gets f).
Proof. intros w Hw. cbn. split; [done|]. exists []. by rewrite app_nil_r. Qed.

Lemma never_locks_modify f :
  (forall s, mutex_ (f s) = mutex_ s) -> never_locks (modify (with_self f)).
Proof.
  intros Hf w Hw. cbn. rewrite Hf. split; [done|]. exists [].
  by rewrite app_nil_r.
Qed.

Lemma never_locks_emit e : never_locks (emit e).
Proof. intros w Hw. cbn. split; [done|]. exists []. by rewrite app_nil_r. Qed.

Lemma never_locks_fail {A} (m : M A) :
  (forall w, match m w with Ret _ _ => False | _ => True end) ->
  never_locks m.
Proof. intros Hm w _. specialize (Hm w). by destruct (m w). Qed.

Ltac never_locks_with known :=
  repeat first
    [ known
    | apply never_locks_bind; [|intros ?]
    | apply never_locks_ret
    | apply never_locks_touch
    | apply never_locks_gets
    | apply never_locks_emit
    | apply never_locks_modify; intros []; reflexivity
    | apply never_locks_fail; intros ?; exact I
    | match goal with
      | |- never_locks (when ?b _) => destruct b; cbn [when]
      | |- never_locks (RAFTCPP_CHECK ?b) => destruct b; cbn [RAFTCPP_CHECK]
      | |- never_locks (succ64 ?x) => unfold succ64; destruct (x <? INT64_MAX)
      | |- never_locks (match ?o with Some _ => _ | None => _ end) => destruct o
      | |- never_locks (if ?b then _ else _) => destruct b
      end
    | progress unfold entries_find, entries_count, entries_erase,
        entries_assign, entries_subscript, read_next_index, write_next_index,
        read_committed_log_index, write_committed_log_index ].

Ltac never_locks := never_locks_with fail.

Lemma never_locks_erase_loop fuel : forall i, never_locks (Push_erase_loop fuel i).
Proof.
  induction fuel as [|fuel IH]; intros i; cbn [Push_erase_loop].
  - never_locks.
  - never_locks_with ltac:(apply IH).
Qed.

Lemma never_locks_CommitLogs_loop fuel :
  forall i, never_locks (CommitLogs_loop fuel i).
Proof.
  induction fuel as [|fuel IH]; intros i; cbn [CommitLogs_loop].
  - never_locks.
  - never_locks_with ltac:(apply IH).
Qed.

Lemma never_locks_CommitLogs c : never_locks (CommitLogs c).
Proof.
  unfold CommitLogs. never_locks_with ltac:(apply never_locks_CommitLogs_loop).
Qed.

Lemma never_locks_Push c p e : never_locks (Push c p e).
Proof.
  unfold Push.
  never_locks_with
    ltac:(first [apply never_locks_erase_loop | apply never_locks_CommitLogs]).
Qed.

(** [DoPullLogs] reads [next_index_] with [mutex_] locked. *)
Lemma DoPullLogs_locked client is_leader w :
  mutex_ (self w) = false ->
  exists w', DoPullLogs (Some client) is_leader w = Ret tt w' /\
    accesses w' = accesses w ++ [mkAccess M_next_index true].
Proof.
  intros Hw. unfold DoPullLogs. mrun. rewrite Hw. mrun. eauto.
Qed.

(** [Push] entered with [mutex_] free makes all its accesses to the guarded
    members, and there is at least one, with [mutex_] free. *)
Lemma Push_never_locked c p e w w' :
  mutex_ (self w) = false ->
  Push c p e w = Ret tt w' ->
  exists l, accesses w' = accesses w ++ l /\ l <> [] /\ unlocked l = true.
Proof.
  intros Hw H. pose proof (never_locks_Push c p e w Hw) as N.
  rewrite H in N. destruct N as (_ & l & Hl & Hu).
  exists l. repeat split; try done. intros ->. rewrite app_nil_r in Hl.
  revert H. unfold Push. rewrite bind_run.
  destruct (RAFTCPP_CHECK _ w) as [[] w0| | |] eqn:H0; try done.
  assert (w0 = w) as ->.
  { unfold RAFTCPP_CHECK in H0. destruct (0 <=? log_index e); [|done].
    by injection H0. }
  match goal with
  | |- (entries_count ?i ≫= ?k) w = _ -> _ =>
      assert (Hk : forall n, never_locks (k n))
        by (intros n;
            never_locks_with
              ltac:(first [apply never_locks_erase_loop
                          | apply never_locks_CommitLogs]));
      rewrite bind_run;
      destruct (entries_count i w) as [n w1| | |] eqn:H1; try done;
      specialize (Hk n w1)
  end.
  unfold entries_count, entries_find in H1. cbn in H1.
  injection H1 as _ <-. cbn in Hk. specialize (Hk Hw).
  intros H. rewrite H in Hk. destruct Hk as (_ & l & Hl' & _).
  rewrite Hl in Hl'. apply (f_equal length) in Hl'.
  rewrite !length_app in Hl'. cbn in Hl'. lia.
Qed.

(** ** The properties *)

(** C9: a call [Push] with [log_index >= 0] that returns normally leaves
    [next_index_] at least [log_index + 1]; when the predecessor test or the
    conflict test fired, the final frontier-advance step overrides what
    they assigned and [next_index_] is exactly [log_index + 1]. *)
Lemma Push_next_index_lower_bound c p e w w' :
  0 <= log_index e ->
  Push c p e w = Ret tt w' ->
  log_index e + 1 <= next_index_ (self w') /\
  (gap (all_log_entries_ (self w)) p e = true \/
   conflict (all_log_entries_ (self w)) e = true ->
   next_index_ (self w') = log_index e + 1).
Proof.
  intros _ H. push_inv H.
  destruct S as (_ & _ & Hnext & _). rewrite Hnext. unfold advances.
  destruct (gap _ p e), (conflict _ e); cbn [orb]; try (split; [lia | done]).
  destruct (next_index_ (self w) <=? log_index e) eqn:Hn.
  - split; [lia | done].
  - apply Z.leb_gt in Hn. split; [lia | intros [?|?]; done].
Qed.

(** C10: [Push] leaves every stored entry below [log_index] as it was;
    away from [log_index] it only ever deletes (a key other than
    [log_index] that is stored afterwards was stored before, with the same
    entry), so the only insertion or overwrite is at [log_index]. *)
Lemma Push_frame c p e w w' :
  Push c p e w = Ret tt w' ->
  (forall j, j < log_index e ->
     all_log_entries_ (self w') !! j = all_log_entries_ (self w) !! j) /\
  (forall j x, j <> log_index e ->
     all_log_entries_ (self w') !! j = Some x ->
     all_log_entries_ (self w) !! j = Some x).
Proof.
  intros H. push_inv H.
  destruct S as (_ & (k & _ & Hm) & _). rewrite Hm. split.
  - intros j Hj. rewrite lookup_insert_ne by lia. rewrite lookup_erase_run.
    case_decide; [lia | done].
  - intros j x Hj. rewrite lookup_insert_ne by done. rewrite lookup_erase_run.
    case_decide; done.
Qed.

(** C3: when the entry stored at [log_index] has another term than the
    pushed one, [Push] returns unless an [int64_t] computation overflows,
    and whenever it returns: the contiguous run of stored keys that starts
    at [log_index] (of some length [k >= 1], ended by the first absent key)
    is deleted, the pushed entry is stored at [log_index], every key outside
    the run is untouched, and [next_index_] is [log_index + 1]. *)
Lemma Push_conflict_truncates c p e w old :
  all_log_entries_ (self w) !! log_index e = Some old ->
  term_id old <> term_id e ->
  (0 <= log_index e < INT64_MAX ->
   c < INT64_MAX ->
   (forall j, is_Some (all_log_entries_ (self w) !! j) -> j < INT64_MAX) ->
   exists w', Push c p e w = Ret tt w') /\
  (forall w',
     Push c p e w = Ret tt w' ->
     exists k : nat,
       (0 < k)%nat /\
       (forall j, log_index e <= j < log_index e + Z.of_nat k ->
          is_Some (all_log_entries_ (self w) !! j)) /\
       all_log_entries_ (self w) !! (log_index e + Z.of_nat k) = None /\
       (forall j, log_index e < j < log_index e + Z.of_nat k ->
          all_log_entries_ (self w') !! j = None) /\
       all_log_entries_ (self w') !! log_index e = Some e /\
       (forall j, ~ log_index e <= j < log_index e + Z.of_nat k ->
          all_log_entries_ (self w') !! j = all_log_entries_ (self w) !! j) /\
       next_index_ (self w') = log_index e + 1).
Proof.
  intros Hold Hterm. split; [apply Push_returns|].
  intros w' H. push_inv H.
  destruct S as (_ & (k & Hrun & Hm) & Hnext & _).
  assert (Hconf : conflict (all_log_entries_ (self w)) e = true).
  { unfold conflict. rewrite Hold. cbn. apply negb_true_iff, Z.eqb_neq. done. }
  rewrite Hconf in Hrun. destruct Hrun as [Hrun Hend].
  unfold advances in Hnext. rewrite Hconf, orb_true_r in Hnext. cbn in Hnext.
  assert (Hk : (0 < k)%nat).
  { destruct k; [|lia]. rewrite Z.add_0_r, Hold in Hend. done. }
  exists k. repeat split; try done.
  - intros j Hj. rewrite Hm, lookup_insert_ne by lia. rewrite lookup_erase_run.
    case_decide; [done | lia].
  - rewrite Hm. apply lookup_insert_eq.
  - intros j Hj. rewrite Hm, lookup_insert_ne by lia. rewrite lookup_erase_run.
    case_decide; [lia | done].
Qed.

(** C6: after a [Push] that returned, the same [Push] again returns too,
    with the same stored entries and the same [next_index_]. *)
Lemma Push_twice c p e w w1 :
  Push c p e w = Ret tt w1 ->
  exists w2,
    Push c p e w1 = Ret tt w2 /\
    all_log_entries_ (self w2) = all_log_entries_ (self w1) /\
    next_index_ (self w2) = next_index_ (self w1).
Proof.
  intros H. push_inv H.
  destruct S as (Hi0 & (k & _ & Hm) & Hnext & Hmax & Hcom & _).
  assert (Hconf : conflict (all_log_entries_ (self w1)) e = false).
  { unfold conflict. rewrite Hm, lookup_insert_eq. cbn.
    rewrite Z.eqb_refl. done. }
  assert (Hgap : gap (all_log_entries_ (self w1)) p e =
                 gap (all_log_entries_ (self w)) p e).
  { unfold gap. rewrite Hm, lookup_insert_ne by lia. rewrite lookup_erase_run.
    case_decide; [lia | done]. }
  pose proof (Push_spec c p e w1) as S2. cbv zeta in S2.
  unfold advances in *. rewrite Hconf, Hgap in S2.
  destruct (Push c p e w1) as [[] w2| | |]; [| lia | | done].
  - exists w2. split; [done|].
    destruct S2 as (_ & (k2 & -> & Hm2) & Hnext2 & _).
    split.
    + rewrite Hm2. cbn. rewrite Hm. apply insert_insert_eq.
    + rewrite Hnext2, Hnext.
      destruct (gap _ p e), (conflict _ e);
        cbn [orb] in *; try done.
      * replace (log_index e + 1 <=? log_index e) with false; [done|].
        symmetry. apply Z.leb_gt. lia.
      * destruct (next_index_ (self w) <=? log_index e) eqn:Hn.
        -- replace (log_index e + 1 <=? log_index e) with false; [done|].
           symmetry. apply Z.leb_gt. lia.
        -- rewrite Hn. done.
  - exfalso. destruct S2 as (_ & [(? & _) | [(Hadv & ?) | (? & ?)]]);
      [done | | lia].
    rewrite Hnext, orb_false_r in Hadv.
    destruct (gap _ p e); cbn [orb] in *; [apply Hmax in Hadv; lia|].
    destruct (conflict _ e); cbn [orb] in *.
    + apply Z.leb_le in Hadv. lia.
    + destruct (next_index_ (self w) <=? log_index e) eqn:Hn.
      * apply Z.leb_le in Hadv. lia.
      * rewrite Hn in Hadv. done.
Qed.

(** C4: [committed_log_index_] never decreases over any sequence of
    [Push] and [CommitLogs] calls, and [CommitLogs c] with [c] at most the
    current committed index returns with the manager unchanged and without
    any call to the state machine (the trace is unchanged). *)
Theorem committed_index_monotone :
  (forall cs w w',
     run_calls cs w = Ret tt w' ->
     committed_log_index_ (self w) <= committed_log_index_ (self w')) /\
  (forall c w,
     c <= committed_log_index_ (self w) ->
     exists w', CommitLogs c w = Ret tt w' /\
                self w' = self w /\ trace w' = trace w).
Proof.
  split.
  - induction cs as [|c cs IH]; intros w w' H.
    + cbv [run_calls mret M_ret] in H. injection H as ->. lia.
    + cbn [run_calls] in H. rewrite bind_run in H.
      destruct (run_call c w) as [[] w1| | |] eqn:H1; try done.
      apply run_call_committed in H1. apply IH in H. lia.
  - intros c w Hc. pose proof (CommitLogs_spec c w) as S.
    destruct (CommitLogs c w) as [[] w'| | |]; [| done | lia | done].
    exists w'. split; [done|]. destruct S as (Hs & Ht & _).
    rewrite Hs. apply Z.leb_le in Hc. rewrite Hc. done.
Qed.

Lemma committed_index_monotone_witness :
  committed_log_index_ (self fresh) <= committed_log_index_ (self w_gap) /\
  exists w', CommitLogs 0 w_one = Ret tt w' /\
             self w' = self w_one /\ trace w' = trace w_one.
Proof.
  split.
  - apply (proj1 committed_index_monotone
             [CallPush 0 0 entry_x; CallPush 0 1 entry_gap] fresh w_gap).
    vm_compute. reflexivity.
  - apply (proj2 committed_index_monotone 0 w_one).
    vm_compute. discriminate.
Defined.

(** C7: [DoPullLogs], entered with [mutex_] free.  Without a leader
    client: no request is sent, no timer is stopped, the store,
    [next_index_] and [committed_log_index_] are unchanged and
    [is_running_] is cleared.  With a leader client: exactly one
    [async_call] is issued, to that client, carrying the binary node id and
    the current [next_index_]. *)
Theorem DoPullLogs_pull w :
  mutex_ (self w) = false ->
  (forall is_leader,
     exists w', DoPullLogs None is_leader w = Ret tt w' /\
       pulls (trace w') = pulls (trace w) /\
       timer_stops (trace w') = timer_stops (trace w) /\
       all_log_entries_ (self w') = all_log_entries_ (self w) /\
       next_index_ (self w') = next_index_ (self w) /\
       committed_log_index_ (self w') = committed_log_index_ (self w) /\
       is_running_ (self w') = false /\
       trace w' = trace w ++ [Log (LogNoLeaderClient is_leader)]) /\
  (forall client is_leader,
     exists w', DoPullLogs (Some client) is_leader w = Ret tt w' /\
       pulls (trace w') =
         pulls (trace w) ++
         [(client, ToBinary (this_node_id_ (self w)), next_index_ (self w))] /\
       trace w' =
         trace w ++
         [AsyncCall client REQUEST_PULL_LOGS
            (ToBinary (this_node_id_ (self w))) (next_index_ (self w))] /\
       self w' = self w).
Proof.
  intros Hfree. split.
  - intros is_leader. unfold DoPullLogs. mrun. rewrite Hfree. mrun.
    eexists. split; [reflexivity|]. cbn [self trace is_running_ set_running].
    unfold pulls, timer_stops. rewrite !omap_app. cbn. rewrite !app_nil_r. done.
  - intros client is_leader. unfold DoPullLogs. mrun. rewrite Hfree. mrun.
    eexists. split; [reflexivity|]. cbn [self trace].
    unfold pulls. rewrite !omap_app. cbn.
    repeat split. destruct (self w); cbn in *. by subst.
Qed.

Lemma DoPullLogs_pull_witness :
  (exists w', DoPullLogs None true fresh = Ret tt w' /\
     is_running_ (self w') = false /\ pulls (trace w') = []) /\
  (exists w', DoPullLogs (Some 7%nat) false w_one = Ret tt w' /\
     pulls (trace w') = [(7%nat, "n1", 1)]).
Proof.
  split.
  - destruct (proj1 (DoPullLogs_pull fresh eq_refl) true)
      as (w' & H & Hp & _ & _ & _ & _ & Hr & _).
    exists w'. repeat split; [exact H | exact Hr | exact Hp].
  - destruct (proj2 (DoPullLogs_pull w_one eq_refl) 7%nat false)
      as (w' & H & Hp & _).
    exists w'. split; [exact H | exact Hp].
Defined.

Lemma Push_next_index_lower_bound_witness :
  0 <= log_index entry_gap /\
  Push 0 1 entry_gap w_one = Ret tt w_gap /\
  log_index entry_gap + 1 <= next_index_ (self w_gap) /\
  (gap (all_log_entries_ (self w_one)) 1 entry_gap = true \/
   conflict (all_log_entries_ (self w_one)) entry_gap = true ->
   next_index_ (self w_gap) = log_index entry_gap + 1).
Proof.
  assert (H0 : 0 <= log_index entry_gap) by (simpl; lia).
  assert (H : Push 0 1 entry_gap w_one = Ret tt w_gap)
    by (vm_compute; reflexivity).
  split; [exact H0 | split; [exact H |]].
  exact (Push_next_index_lower_bound 0 1 entry_gap w_one w_gap H0 H).
Defined.

Lemma Push_frame_witness :
  Push 0 1 entry_new w_three = Ret tt w_resolved /\
  (forall j, j < log_index entry_new ->
     all_log_entries_ (self w_resolved) !! j =
     all_log_entries_ (self w_three) !! j) /\
  (forall j x, j <> log_index entry_new ->
     all_log_entries_ (self w_resolved) !! j = Some x ->
     all_log_entries_ (self w_three) !! j = Some x).
Proof.
  assert (H : Push 0 1 entry_new w_three = Ret tt w_resolved)
    by (vm_compute; reflexivity).
  split; [exact H |].
  exact (Push_frame 0 1 entry_new w_three w_resolved H).
Defined.

Lemma Push_conflict_truncates_witness :
  all_log_entries_ (self w_three) !! log_index entry_new = Some entry_y /\
  term_id entry_y <> term_id entry_new /\
  Push 0 1 entry_new w_three = Ret tt w_resolved /\
  all_log_entries_ (self w_resolved) !! 1 = Some entry_new /\
  next_index_ (self w_resolved) = 2.
Proof.
  assert (H1 : all_log_entries_ (self w_three) !! log_index entry_new
               = Some entry_y) by (vm_compute; reflexivity).
  assert (H2 : term_id entry_y <> term_id entry_new) by (simpl; lia).
  assert (H3 : Push 0 1 entry_new w_three = Ret tt w_resolved)
    by (vm_compute; reflexivity).
  destruct (proj2 (Push_conflict_truncates 0 1 entry_new w_three entry_y
                     H1 H2) w_resolved H3)
    as (k & _ & _ & _ & _ & Hi & _ & Hn).
  exact (conj H1 (conj H2 (conj H3 (conj Hi Hn)))).
Defined.

Lemma Push_twice_witness :
  Push 0 1 entry_new w_three = Ret tt w_resolved /\
  exists w2,
    Push 0 1 entry_new w_resolved = Ret tt w2 /\
    all_log_entries_ (self w2) = all_log_entries_ (self w_resolved) /\
    next_index_ (self w2) = next_index_ (self w_resolved).
Proof.
  assert (H : Push 0 1 entry_new w_three = Ret tt w_resolved)
    by (vm_compute; reflexivity).
  split; [exact H |].
  exact (Push_twice 0 1 entry_new w_three w_resolved H).
Defined.

(** ** Where the code departs from the spec *)

(** The loop bounds of the model are never hit. *)
Lemma CommitLogs_fuel c w : CommitLogs c w <> OutOfFuel.
Proof.
  pose proof (CommitLogs_spec c w) as S. destruct (CommitLogs c w); done.
Qed.

Lemma Push_fuel c p e w : Push c p e w <> OutOfFuel.
Proof.
  pose proof (Push_spec c p e w) as S. cbv zeta in S.
  destruct (Push c p e w); done.
Qed.

(** C1: the healthy append of the spec, on a manager just constructed
    (whatever its initial [next_index_] and [committed_log_index_]): index 0,
    term 1, payload "x" is pushed with committed index 0.  [Push] returns,
    the entry is stored and the committed index is at least 0, but the state
    machine has received nothing: [CommitLogs] enters its loop at
    [committed_log_index + 1], after the last index to apply
    (see [CommitLogs_applies_nothing] for every call). *)
Theorem healthy_append_applies_nothing id next0 committed0 :
  exists w',
    Push 0 0 entry_x (NonLeaderLogManager_new id next0 committed0)
      = Ret tt w' /\
    all_log_entries_ (self w') !! 0 = Some entry_x /\
    committed_log_index_ (self w') = Z.max 0 committed0 /\
    applied (trace w') = [].
Proof.
  destruct (Push_returns 0 0 entry_x
              (NonLeaderLogManager_new id next0 committed0)) as [w' H].
  - unfold INT64_MAX. simpl. lia.
  - unfold INT64_MAX. lia.
  - intros j [x Hx]. simpl in Hx. rewrite lookup_empty in Hx. done.
  - exists w'. split; [exact H|].
    pose proof (Push_applies_nothing _ _ _ _ _ H) as Ha.
    push_inv H. destruct S as (_ & (k & _ & Hm) & _ & _ & Hc & _).
    split; [|split].
    + rewrite Hm. apply lookup_insert_eq.
    + exact Hc.
    + rewrite Ha. reflexivity.
Qed.

(** C2: the gap scenario of the spec.  Only index 0 (term 1) is stored;
    index 2, term 1 is pushed with previous term 1.  The entry is stored at
    index 2 and index 1 is still missing, but [next_index_] is 3 when [Push]
    returns, not 1: the value assigned on line 59 is overwritten on
    line 79. *)
Theorem gap_scenario_next_index :
  all_log_entries_ (self w_one) = {[ 0 := entry_x ]} /\
  exists w',
    Push 0 1 entry_gap w_one = Ret tt w' /\
    all_log_entries_ (self w') !! 2 = Some entry_gap /\
    all_log_entries_ (self w') !! 1 = None /\
    next_index_ (self w') = 3.
Proof.
  split; [vm_compute; reflexivity|].
  exists w_gap. split; [vm_compute; reflexivity|].
  split; [vm_compute; reflexivity|].
  split; vm_compute; reflexivity.
Qed.

(** C5: a commit past the store.  On a manager just constructed, with
    committed index -1 and nothing stored, [CommitLogs 0] returns normally
    and records 0 as committed although no entry is stored at index 0: the
    check of line 92 is never reached ([CommitLogs_never_fatal]). *)
Theorem CommitLogs_ahead_of_store id next0 :
  exists w',
    CommitLogs 0 (NonLeaderLogManager_new id next0 (-1)) = Ret tt w' /\
    all_log_entries_ (self w') !! 0 = None /\
    committed_log_index_ (self w') = 0.
Proof.
  eexists. split; [vm_compute; reflexivity|].
  split; reflexivity.
Qed.

(** C8: [Push] on a manager just constructed.  It returns, it has read and
    written the guarded members, and every one of these accesses was made
    with [mutex_] free: [Push] never takes the lock ([Push_never_locked]
    for every call), whereas [DoPullLogs] does
    ([DoPullLogs_locked]). *)
Theorem Push_accesses_unguarded :
  mutex_ (self fresh) = false /\
  exists w',
    Push 0 0 entry_x fresh = Ret tt w' /\
    accesses w' <> [] /\
    unlocked (accesses w') = true.
Proof.
  split; [reflexivity|].
  exists w_one. split; [vm_compute; reflexivity|].
  split; [vm_compute; discriminate | vm_compute; reflexivity].
Qed.

(** * Further properties of the methods *)

(** ** [Push] and [CommitLogs] *)

(** X1: [Push] aborts on its check exactly when the index of the pushed
    entry is negative, whatever the state. *)
Lemma Push_fatal_iff c p e w :
  Push c p e w = Fatal <-> log_index e < 0.
Proof.
  split.
  - intros H. pose proof (Push_spec c p e w) as S. rewrite H in S. exact S.
  - intros H. unfold Push. mrun.
    replace (0 <=? log_index e) with false; [reflexivity|].
    symmetry. apply Z.leb_gt. exact H.
Qed.

(** X2: whenever [Push] returns, the pushed entry is what is stored at its
    index. *)
Lemma Push_stores_entry c p e w w' :
  Push c p e w = Ret tt w' ->
  all_log_entries_ (self w') !! log_index e = Some e.
Proof.
  intros H. push_inv H. destruct S as (_ & (k & _ & ->) & _).
  apply lookup_insert_eq.
Qed.

(** X3: when the conflict test does not fire (nothing stored at the index,
    or an entry of the same term), [Push] erases nothing: the store is the
    old one with the pushed entry written at its index, also when the
    predecessor test fired. *)
Lemma Push_without_conflict c p e w w' :
  conflict (all_log_entries_ (self w)) e = false ->
  Push c p e w = Ret tt w' ->
  all_log_entries_ (self w') = <[log_index e := e]> (all_log_entries_ (self w)).
Proof.
  intros Hc H. push_inv H. destruct S as (_ & (k & Hk & ->) & _).
  rewrite Hc in Hk. subst k. reflexivity.
Qed.

(** X4: when neither the predecessor test nor the conflict test fires,
    [Push] never moves the frontier back: [next_index_] becomes the larger
    of its old value and [log_index + 1]. *)
Lemma Push_frontier c p e w w' :
  gap (all_log_entries_ (self w)) p e = false ->
  conflict (all_log_entries_ (self w)) e = false ->
  Push c p e w = Ret tt w' ->
  next_index_ (self w') = Z.max (next_index_ (self w)) (log_index e + 1).
Proof.
  intros Hg Hc H. push_inv H. destruct S as (_ & _ & -> & _).
  unfold advances. rewrite Hg, Hc. cbn [orb].
  destruct (next_index_ (self w) <=? log_index e) eqn:Hn;
    [apply Z.leb_le in Hn | apply Z.leb_gt in Hn]; lia.
Qed.

(** X5: what a returning [Push] does outside the class is to log, in this
    order, the duplicate (an entry was stored at the index), the missing
    predecessor (the predecessor test fired) and the conflict (the conflict
    test fired), and nothing else. *)
Lemma Push_trace c p e w w' :
  Push c p e w = Ret tt w' ->
  trace w' = trace w ++ push_logs (all_log_entries_ (self w)) p e.
Proof.
  unfold Push, push_logs, gap, conflict.
  set (m := all_log_entries_ (self w)). set (i := log_index e). mrun.
  destruct (0 <=? i) eqn:Hi0; [|done].
  mrun. fold m.
  destruct (m !! i) as [e0|] eqn:Hi;
    [change (0 <? 1) with true | change (0 <? 0) with false]; mrun;
  (destruct (0 <? i) eqn:Hpos; mrun; fold m;
   [destruct (absent_or_other_term (m !! (i - 1)) p) eqn:Hgap; mrun; fold m|]);
  rewrite ?Hi; cbn [present_with_other_term andb] in *;
  try (destruct (negb (term_id e0 =? term_id e)) eqn:Hconf; mrun; fold m;
       [erase_step;
        [destruct Hloop as (k & Hrun & Hself & Htr); mrun;
         rewrite ?Hself, ?Htr; mrun
        |done|done|done]|]).
  all: mrun.
  all: try match goal with
       | |- context [if ?a <=? ?b then _ else _] => destruct (a <=? b)
       end; mrun; rewrite ?succ64_run;
       try (destruct (_ <? INT64_MAX); mrun).
  all: try done.
  all: commit_step; try done.
  all: destruct Hcommit as (_ & Ht & _); intros [= <-]; rewrite Ht.
  all: rewrite <- ?app_assoc; cbn [app]; rewrite ?app_nil_r; reflexivity.
Qed.

(** X6: [CommitLogs c] with [c] below [INT64_MAX] returns; the committed
    index is then the larger of [c] and its old value, and the store, the
    frontier, the flags and the trace are as before. *)
Lemma CommitLogs_effect c w :
  c < INT64_MAX ->
  exists w',
    CommitLogs c w = Ret tt w' /\
    committed_log_index_ (self w') = Z.max c (committed_log_index_ (self w)) /\
    all_log_entries_ (self w') = all_log_entries_ (self w) /\
    next_index_ (self w') = next_index_ (self w) /\
    is_running_ (self w') = is_running_ (self w) /\
    mutex_ (self w') = mutex_ (self w) /\
    trace w' = trace w.
Proof.
  intros Hc. pose proof (CommitLogs_spec c w) as S.
  destruct (CommitLogs c w) as [[] w'| | |]; [| done | lia | done].
  exists w'. split; [done|]. destruct S as (-> & -> & _).
  destruct (c <=? committed_log_index_ (self w)) eqn:Hle;
    [apply Z.leb_le in Hle | apply Z.leb_gt in Hle]; cbn;
    repeat split; lia.
Qed.

(** [DoPullLogs], case by case of its outcome. *)
Lemma DoPullLogs_spec l b w :
  match DoPullLogs l b w with
  | Ret _ w' =>
      mutex_ (self w) = false /\
      self w' = match l with
                | None => set_running false (self w)
                | Some _ => self w
                end /\
      trace w' =
        trace w ++
        [match l with
         | None => Log (LogNoLeaderClient b)
         | Some c => AsyncCall c REQUEST_PULL_LOGS
                       (ToBinary (this_node_id_ (self w)))
                       (next_index_ (self w))
         end]
  | Undefined => mutex_ (self w) = true
  | Fatal | OutOfFuel => False
  end.
Proof.
  unfold DoPullLogs. mrun. destruct (mutex_ (self w)) eqn:Hm; [done|].
  destruct l; mrun; (split; [done|]); (split; [|done]);
    destruct (self w); cbn in *; by subst.
Qed.

(** What one method call does to the members and to the trace, on the
    observations used below. *)
Lemma run_method_spec m w w' :
  run_method m w = Ret tt w' ->
  mutex_ (self w') = mutex_ (self w) /\
  (is_running_ (self w') = is_running_ (self w) \/
   is_running_ (self w') = false) /\
  committed_log_index_ (self w') =
    fold_right Z.max (committed_log_index_ (self w)) (commit_args [m]) /\
  applied (trace w') = applied (trace w) /\
  timer_effects (trace w') = timer_effects (trace w) ++ timer_calls [m] /\
  (pulls (trace w')).*1.*1 = (pulls (trace w)).*1.*1 ++ leader_clients [m].
Proof.
  destruct m as [ci pt e|ci|l b| |]; cbn [run_method]; intros H.
  - push_inv H.
    destruct S as (_ & _ & _ & _ & Hc & _ & _ & Hr & Hm & logs & Ht & Hlogs).
    rewrite Ht. unfold applied, timer_effects, pulls. rewrite !omap_app.
    assert (Hnil : omap (λ e0, match e0 with OnApply d => Some d | _ => None end) logs = []
                   /\ omap (λ e0, match e0 with
                                  | RegisterTimer _ | StartTimer _ _ | StopTimer _ => Some e0
                                  | _ => None end) logs = []
                   /\ omap (λ e0, match e0 with
                                  | AsyncCall c0 _ id n => Some (c0, id, n)
                                  | _ => None end) logs = []).
    { clear -Hlogs. induction logs as [|[] logs IH]; cbn in *; try done.
      apply IH, Hlogs. }
    destruct Hnil as (-> & -> & ->). cbn. rewrite !app_nil_r.
    repeat split; try done; try (by left); try lia.
  - pose proof (CommitLogs_spec ci w) as S. rewrite H in S.
    destruct S as (-> & -> & _). cbn. rewrite !app_nil_r.
    destruct (ci <=? committed_log_index_ (self w)) eqn:Hle;
      [apply Z.leb_le in Hle | apply Z.leb_gt in Hle]; cbn;
      repeat split; try done; try (by left); try lia.
  - pose proof (DoPullLogs_spec l b w) as S. rewrite H in S.
    destruct S as (Hm & -> & ->).
    unfold applied, timer_effects, pulls. rewrite !omap_app, !fmap_app.
    destruct l; cbn; rewrite ?app_nil_r; repeat split; try done;
      try (by left); try (by right).
  - unfold Run, emit in H. injection H as <-. cbn.
    unfold applied, timer_effects, pulls. rewrite !omap_app. cbn.
    rewrite ?app_nil_r. repeat split; try done; by left.
  - unfold Stop, emit in H. injection H as <-. cbn.
    unfold applied, timer_effects, pulls. rewrite !omap_app. cbn.
    rewrite ?app_nil_r. repeat split; try done; by left.
Qed.

(** Folding [Z.max] from a maximum. *)
Lemma foldr_max_shift l : forall a b,
  fold_right Z.max (Z.max a b) l = Z.max a (fold_right Z.max b l).
Proof. induction l as [|x l IH]; intros a b; cbn; [done|]. rewrite IH. lia. Qed.

(** ... and what a sequence of calls does. *)
Lemma run_methods_spec ms : forall w w',
  run_methods ms w = Ret tt w' ->
  mutex_ (self w') = mutex_ (self w) /\
  (is_running_ (self w') = is_running_ (self w) \/
   is_running_ (self w') = false) /\
  committed_log_index_ (self w') =
    fold_right Z.max (committed_log_index_ (self w)) (commit_args ms) /\
  applied (trace w') = applied (trace w) /\
  timer_effects (trace w') = timer_effects (trace w) ++ timer_calls ms /\
  (pulls (trace w')).*1.*1 = (pulls (trace w)).*1.*1 ++ leader_clients ms.
Proof.
  induction ms as [|m ms IH]; intros w w' H.
  - cbv [run_methods mret M_ret] in H. injection H as <-. cbn.
    rewrite !app_nil_r. repeat split; try done. by left.
  - cbn [run_methods] in H. rewrite bind_run in H.
    destruct (run_method m w) as [[] w1| | |] eqn:H1; try done.
    apply run_method_spec in H1. apply IH in H.
    destruct H1 as (Hm1 & Hr1 & Hc1 & Ha1 & Ht1 & Hp1).
    destruct H as (Hm & Hr & Hc & Ha & Ht & Hp).
    change (m :: ms) with ([m] ++ ms).
    unfold commit_args, timer_calls, leader_clients in *.
    rewrite !omap_app, !app_assoc, <- Ht1, <- Hp1.
    repeat split; try congruence.
    + destruct Hr as [->| ->]; [exact Hr1 | by right].
    + rewrite Hc, Hc1, foldr_app.
      destruct (omap _ [m]) as [|x [|y t]] eqn:Hx; cbn.
      * done.
      * rewrite foldr_max_shift. lia.
      * destruct m; cbn in Hx; done.
Qed.

(** ** Invariants over sequences of calls *)

Lemma in_range_lookup s j :
  in_range s -> is_Some (all_log_entries_ s !! j) -> 0 <= j < INT64_MAX.
Proof. intros [Hk _] [x Hx]. exact (Hk j x Hx). Qed.

Lemma Push_in_range c p e w w' :
  in_range (self w) -> Push c p e w = Ret tt w' -> in_range (self w').
Proof.
  intros Hr H. push_inv H.
  destruct S as (Hi0 & (k & _ & Hm) & Hn & Hmax & _).
  assert (Hi : log_index e < INT64_MAX).
  { destruct (advances _ _ p e) eqn:Ha; [by apply Hmax|].
    unfold advances in Ha. apply orb_false_iff in Ha as [_ Ha].
    apply Z.leb_gt in Ha. destruct Hr as [_ Hr]. lia. }
  split.
  - rewrite Hm. intros j x Hj.
    destruct (decide (log_index e = j)) as [<-|Hne]; [lia|].
    rewrite lookup_insert_ne, lookup_erase_run in Hj by done.
    case_decide; [done|]. eapply in_range_lookup; eauto.
  - rewrite Hn. destruct (advances _ _ p e); [lia | apply Hr].
Qed.

Lemma run_method_in_range m w w' :
  in_range (self w) -> run_method m w = Ret tt w' -> in_range (self w').
Proof.
  destruct m as [ci pt e|ci|l b| |]; cbn [run_method]; intros Hr H.
  - eapply Push_in_range; eauto.
  - pose proof (CommitLogs_spec ci w) as S. rewrite H in S.
    destruct S as (-> & _). by destruct (ci <=? _).
  - pose proof (DoPullLogs_spec l b w) as S. rewrite H in S.
    destruct S as (_ & -> & _). by destruct l.
  - unfold Run, emit in H. by injection H as <-.
  - unfold Stop, emit in H. by injection H as <-.
Qed.

Lemma run_method_returns m w :
  in_range (self w) -> mutex_ (self w) = false -> method_in_range m ->
  exists w', run_method m w = Ret tt w'.
Proof.
  destruct m as [ci pt e|ci|l b| |]; cbn [run_method method_in_range];
    intros Hr Hm Ha.
  - apply Push_returns; try tauto. intros j Hj.
    eapply in_range_lookup in Hj; [lia | done].
  - pose proof (CommitLogs_spec ci w) as S.
    destruct (CommitLogs ci w) as [[] w'| | |]; [eauto | done | lia | done].
  - pose proof (DoPullLogs_spec l b w) as S.
    destruct (DoPullLogs l b w) as [[] w'| | |]; [eauto | done | congruence | done].
  - unfold Run, emit. eauto.
  - unfold Stop, emit. eauto.
Qed.

(** X7: stored keys stay valid.  If every stored key is in
    [0, INT64_MAX) and the frontier is at most [INT64_MAX], this is still so
    after any sequence of method calls that runs to its end. *)
Theorem in_range_preserved ms : forall w w',
  in_range (self w) ->
  run_methods ms w = Ret tt w' ->
  in_range (self w').
Proof.
  induction ms as [|m ms IH]; intros w w' Hr H.
  - cbv [run_methods mret M_ret] in H. by injection H as <-.
  - cbn [run_methods] in H. rewrite bind_run in H.
    destruct (run_method m w) as [[] w1| | |] eqn:H1; try done.
    eapply IH; [|exact H]. eapply run_method_in_range; eauto.
Qed.

(** X8: no abort and no overflow on arguments in range.  From a state
    with keys in range and the mutex free, every sequence of calls whose
    pushed indices are in [0, INT64_MAX) and whose commit indices are below
    [INT64_MAX] runs to its end. *)
Theorem run_methods_returns ms : forall w,
  in_range (self w) ->
  mutex_ (self w) = false ->
  Forall method_in_range ms ->
  exists w', run_methods ms w = Ret tt w'.
Proof.
  induction ms as [|m ms IH]; intros w Hr Hm Ha.
  - eexists. reflexivity.
  - apply Forall_cons in Ha as [Ha1 Ha].
    destruct (run_method_returns m w Hr Hm Ha1) as [w1 H1].
    cbn [run_methods]. rewrite bind_run, H1.
    apply IH; [eapply run_method_in_range; eauto | | done].
    apply run_method_spec in H1. destruct H1 as (-> & _). done.
Qed.

(** X9: [is_running_] is false after construction and no method ever sets
    it: it is false after every sequence of calls on a constructed
    manager. *)
Theorem is_running_never_set id next0 committed0 ms w' :
  run_methods ms (NonLeaderLogManager_new id next0 committed0) = Ret tt w' ->
  is_running_ (self w') = false.
Proof.
  intros H. apply run_methods_spec in H.
  destruct H as (_ & [->| ->] & _); reflexivity.
Qed.

(** X10: every method returns with [mutex_] as it found it: the
    [lock_guard] of [DoPullLogs] is released on both of its exits, and no
    other method touches the mutex. *)
Theorem mutex_released ms w w' :
  run_methods ms w = Ret tt w' -> mutex_ (self w') = mutex_ (self w).
Proof. intros H. apply run_methods_spec in H. tauto. Qed.

(** X11: after a sequence of calls, [committed_log_index_] is the largest
    of its initial value and the commit indices passed to [Push] and
    [CommitLogs]. *)
Theorem committed_is_max ms w w' :
  run_methods ms w = Ret tt w' ->
  committed_log_index_ (self w') =
    fold_right Z.max (committed_log_index_ (self w)) (commit_args ms).
Proof. intros H. apply run_methods_spec in H. tauto. Qed.

(** X12: no sequence of method calls hands a payload to the state
    machine: [OnApply] sits in the loop of [CommitLogs], which is always
    entered past its bound. *)
Theorem state_machine_never_called ms w w' :
  run_methods ms w = Ret tt w' -> applied (trace w') = applied (trace w).
Proof. intros H. apply run_methods_spec in H. tauto. Qed.

(** X13: the timer is started and stopped by [Run] and [Stop] only: the
    timer effects of a sequence of calls are those of its [Run] and [Stop]
    calls, in order ([StartTimer] with period 1000, [StopTimer]). *)
Theorem timer_effects_of_calls ms w w' :
  run_methods ms w = Ret tt w' ->
  timer_effects (trace w') = timer_effects (trace w) ++ timer_calls ms.
Proof. intros H. apply run_methods_spec in H. tauto. Qed.

(** X14: pull requests are sent by [DoPullLogs] only, one per call that
    was given a leader client and to that client, in order. *)
Theorem pulls_of_calls ms w w' :
  run_methods ms w = Ret tt w' ->
  (pulls (trace w')).*1.*1 = (pulls (trace w)).*1.*1 ++ leader_clients ms.
Proof. intros H. apply run_methods_spec in H. tauto. Qed.

(** X15: the pull that follows a [Push].  With the mutex free, [DoPullLogs]
    with a leader client after a returning [Push] sends one request; it
    carries the node id and the frontier [Push] left, which is past the
    pushed index. *)
Theorem Push_then_pull c p e w w1 client is_leader :
  mutex_ (self w) = false ->
  Push c p e w = Ret tt w1 ->
  exists w2,
    DoPullLogs (Some client) is_leader w1 = Ret tt w2 /\
    pulls (trace w2) =
      pulls (trace w) ++
      [(client, ToBinary (this_node_id_ (self w)), next_index_ (self w1))] /\
    log_index e + 1 <= next_index_ (self w1).
Proof.
  intros Hm H. push_inv H.
  destruct S as (_ & _ & Hn & _ & _ & _ & Hid & _ & Hm1 & l & Ht & Hl).
  pose proof (DoPullLogs_spec (Some client) is_leader w1) as S.
  destruct (DoPullLogs (Some client) is_leader w1) as [[] w2| | |];
    [| done | congruence | done].
  exists w2. split; [done|]. destruct S as (_ & _ & ->). split.
  - rewrite Ht, Hid. unfold pulls. rewrite !omap_app.
    replace (omap _ l) with (@nil (rpc_client * string * Z)); [by rewrite app_nil_r|].
    clear -Hl. induction l as [|[] l IH]; cbn in *; try done. apply IH, Hl.
  - rewrite Hn. unfold advances.
    destruct (gap _ p e), (conflict _ e); cbn [orb]; try lia.
    destruct (next_index_ (self w) <=? log_index e) eqn:Hle; [lia|].
    apply Z.leb_gt in Hle. lia.
Qed.

(** ** Contiguous logs *)

Lemma contiguous_lookup s n j :
  contiguous s n -> is_Some (all_log_entries_ s !! j) <-> 0 <= j < n.
Proof.
  intros [Hd _]. rewrite <- elem_of_dom, Hd, elem_of_list_to_set, elem_of_seqZ.
  lia.
Qed.

Lemma contiguous_intro s n :
  (forall j, is_Some (all_log_entries_ s !! j) <-> 0 <= j < n) ->
  next_index_ s = n ->
  contiguous s n.
Proof.
  intros Hk Hn. split; [|done]. apply set_eq. intros j.
  rewrite elem_of_dom, Hk, elem_of_list_to_set, elem_of_seqZ. lia.
Qed.

Lemma Push_append_step c p e w n :
  contiguous (self w) n ->
  0 <= n < INT64_MAX ->
  log_index e = n ->
  c < INT64_MAX ->
  exists w',
    Push c p e w = Ret tt w' /\
    all_log_entries_ (self w') = <[n := e]> (all_log_entries_ (self w)) /\
    contiguous (self w') (n + 1).
Proof.
  intros Hc Hn Hi Hci.
  destruct (Push_returns c p e w) as [w' H]; [lia | done | |].
  { intros j Hj. apply (contiguous_lookup _ n j Hc) in Hj. lia. }
  exists w'. split; [done|]. push_inv H.
  destruct S as (_ & (k & Hk & Hm) & Hnext & _).
  assert (Hnone : all_log_entries_ (self w) !! log_index e = None).
  { apply eq_None_not_Some. rewrite (contiguous_lookup _ n) by done. lia. }
  unfold conflict in Hk. rewrite Hnone in Hk. cbn in Hk. subst k.
  cbn in Hm. rewrite Hi in Hm. split; [done|].
  apply contiguous_intro.
  - intros j. rewrite Hm. destruct (decide (n = j)) as [<-|Hne].
    + rewrite lookup_insert_eq. split; [lia | eauto].
    + rewrite lookup_insert_ne by done.
      rewrite (contiguous_lookup _ n) by done. lia.
  - rewrite Hnext. unfold advances. destruct Hc as [_ Hc]. rewrite Hc.
    replace (n <=? log_index e) with true; [|symmetry; apply Z.leb_le; lia].
    rewrite orb_true_r. lia.
Qed.

(** X16: appending at the frontier.  On a store that holds exactly the
    keys [0 .. n-1] with frontier [n], a [Push] at index [n] returns, writes
    the entry at [n] and leaves the store holding exactly [0 .. n] with
    frontier [n + 1], whatever the previous term it is given. *)
Theorem Push_appends_in_order c p e w n :
  contiguous (self w) n ->
  0 <= n < INT64_MAX ->
  log_index e = n ->
  c < INT64_MAX ->
  exists w',
    Push c p e w = Ret tt w' /\
    all_log_entries_ (self w') = <[n := e]> (all_log_entries_ (self w)) /\
    contiguous (self w') (n + 1).
Proof. apply Push_append_step. Qed.


(** X17: pushes in index order build the log.  From a store holding
    exactly [0 .. n-1] with frontier [n], pushing entries with indices [n],
    [n + 1], ... in this order runs to its end; the store then holds
    exactly [0 .. n + length - 1], the [k]-th pushed entry at [n + k], the
    old entries untouched, and the frontier is [n + length]. *)
Theorem pushes_in_order ms : forall w n,
  contiguous (self w) n ->
  0 <= n ->
  n + Z.of_nat (length ms) <= INT64_MAX ->
  (forall (k : nat) m, ms !! k = Some m ->
     exists c p e, m = MPush c p e /\ c < INT64_MAX /\
                   log_index e = n + Z.of_nat k) ->
  exists w',
    run_methods ms w = Ret tt w' /\
    contiguous (self w') (n + Z.of_nat (length ms)) /\
    (forall (k : nat) c p e, ms !! k = Some (MPush c p e) ->
       all_log_entries_ (self w') !! (n + Z.of_nat k) = Some e) /\
    (forall j, j < n ->
       all_log_entries_ (self w') !! j = all_log_entries_ (self w) !! j).
Proof.
  induction ms as [|m ms IH]; intros w n Hc Hn Hlen Hms.
  - exists w. split; [reflexivity|]. cbn. rewrite Z.add_0_r.
    split; [done|]. split; [|done]. intros k c p e Hk.
    rewrite lookup_nil in Hk. done.
  - destruct (Hms 0%nat m eq_refl) as (c & p & e & -> & Hci & Hi).
    rewrite Z.add_0_r in Hi. cbn [length] in Hlen.
    destruct (Push_append_step c p e w n) as (w1 & H1 & Hm1 & Hc1);
      [done | lia | done | done |].
    destruct (IH w1 (n + 1)) as (w' & H & Hc' & Hget & Hold);
      [done | lia | lia | |].
    { intros k m Hk. destruct (Hms (S k) m Hk) as (c' & p' & e' & ? & ? & ?).
      exists c', p', e'. repeat split; try done. lia. }
    exists w'. cbn [run_methods run_method]. rewrite bind_run, H1.
    split; [done|]. split; [|split].
    + replace (n + Z.of_nat (length (MPush c p e :: ms)))
        with (n + 1 + Z.of_nat (length ms)) by (cbn [length]; lia). done.
    + intros [|k] c' p' e' Hk.
      * injection Hk as -> -> ->. rewrite Z.add_0_r, Hold by lia.
        rewrite Hm1. apply lookup_insert_eq.
      * replace (n + Z.of_nat (S k)) with (n + 1 + Z.of_nat k) by lia.
        eapply Hget. exact Hk.
    + intros j Hj. rewrite Hold by lia. rewrite Hm1.
      apply lookup_insert_ne. lia.
Qed.

(** ** The properties at concrete inputs *)

Lemma Push_gap_returns : Push 0 1 entry_gap w_one = Ret tt w_gap.
Proof. vm_compute. reflexivity. Defined.

Lemma Push_resolved_returns : Push 0 1 entry_new w_three = Ret tt w_resolved.
Proof. vm_compute. reflexivity. Defined.

Lemma Push_x_returns : Push 0 0 entry_x fresh = Ret tt w_one.
Proof. vm_compute. reflexivity. Defined.

Lemma calls_demo_return : run_methods calls_demo fresh = Ret tt w_demo.
Proof. vm_compute. reflexivity. Defined.

Lemma in_range_fresh : in_range (self fresh).
Proof. split; [apply map_Forall_empty | vm_compute; discriminate]. Defined.

Lemma contiguous_fresh : contiguous (self fresh) 0.
Proof. split; reflexivity. Defined.

Lemma contiguous_w_one : contiguous (self w_one) 1.
Proof. split; vm_compute; reflexivity. Defined.


Lemma Push_stores_entry_witness :
  all_log_entries_ (self w_gap) !! log_index entry_gap = Some entry_gap.
Proof. exact (Push_stores_entry 0 1 entry_gap w_one w_gap Push_gap_returns). Defined.

Lemma Push_without_conflict_witness :
  all_log_entries_ (self w_gap) =
  <[log_index entry_gap := entry_gap]> (all_log_entries_ (self w_one)).
Proof.
  apply (Push_without_conflict 0 1 entry_gap w_one w_gap);
    [vm_compute; reflexivity | exact Push_gap_returns].
Defined.

Lemma Push_frontier_witness :
  next_index_ (self w_one) =
  Z.max (next_index_ (self fresh)) (log_index entry_x + 1).
Proof.
  apply (Push_frontier 0 0 entry_x fresh w_one);
    [vm_compute; reflexivity | vm_compute; reflexivity | exact Push_x_returns].
Defined.

Lemma Push_trace_witness :
  trace w_resolved =
  trace w_three ++ push_logs (all_log_entries_ (self w_three)) 1 entry_new.
Proof. exact (Push_trace 0 1 entry_new w_three w_resolved Push_resolved_returns). Defined.

Lemma CommitLogs_effect_witness :
  exists w',
    CommitLogs 5 w_one = Ret tt w' /\
    committed_log_index_ (self w') = Z.max 5 (committed_log_index_ (self w_one)) /\
    all_log_entries_ (self w') = all_log_entries_ (self w_one) /\
    next_index_ (self w') = next_index_ (self w_one) /\
    is_running_ (self w') = is_running_ (self w_one) /\
    mutex_ (self w') = mutex_ (self w_one) /\
    trace w' = trace w_one.
Proof. apply (CommitLogs_effect 5 w_one). vm_compute. reflexivity. Defined.

Lemma in_range_preserved_witness : in_range (self w_demo).
Proof.
  exact (in_range_preserved calls_demo fresh w_demo in_range_fresh
           calls_demo_return).
Defined.

Lemma run_methods_returns_witness :
  exists w', run_methods calls_demo fresh = Ret tt w'.
Proof.
  apply (run_methods_returns calls_demo fresh in_range_fresh eq_refl).
  unfold calls_demo. repeat constructor; vm_compute; try reflexivity; discriminate.
Defined.

Lemma is_running_never_set_witness : is_running_ (self w_demo) = false.
Proof.
  exact (is_running_never_set node1 0 (-1) calls_demo w_demo calls_demo_return).
Defined.

Lemma mutex_released_witness : mutex_ (self w_demo) = mutex_ (self fresh).
Proof. exact (mutex_released calls_demo fresh w_demo calls_demo_return). Defined.

Lemma committed_is_max_witness :
  committed_log_index_ (self w_demo) =
  fold_right Z.max (committed_log_index_ (self fresh)) (commit_args calls_demo).
Proof. exact (committed_is_max calls_demo fresh w_demo calls_demo_return). Defined.

Lemma state_machine_never_called_witness :
  applied (trace w_demo) = applied (trace fresh).
Proof.
  exact (state_machine_never_called calls_demo fresh w_demo calls_demo_return).
Defined.

Lemma timer_effects_of_calls_witness :
  timer_effects (trace w_demo) =
  timer_effects (trace fresh) ++ timer_calls calls_demo.
Proof.
  exact (timer_effects_of_calls calls_demo fresh w_demo calls_demo_return).
Defined.

Lemma pulls_of_calls_witness :
  (pulls (trace w_demo)).*1.*1 =
  (pulls (trace fresh)).*1.*1 ++ leader_clients calls_demo.
Proof. exact (pulls_of_calls calls_demo fresh w_demo calls_demo_return). Defined.

Lemma Push_then_pull_witness :
  exists w2,
    DoPullLogs (Some 7%nat) false w_one = Ret tt w2 /\
    pulls (trace w2) =
      pulls (trace fresh) ++
      [(7%nat, ToBinary (this_node_id_ (self fresh)), next_index_ (self w_one))] /\
    log_index entry_x + 1 <= next_index_ (self w_one).
Proof.
  exact (Push_then_pull 0 0 entry_x fresh w_one 7%nat false eq_refl
           Push_x_returns).
Defined.

Lemma Push_appends_in_order_witness :
  exists w',
    Push 0 1 entry_y w_one = Ret tt w' /\
    all_log_entries_ (self w') = <[1 := entry_y]> (all_log_entries_ (self w_one)) /\
    contiguous (self w') (1 + 1).
Proof.
  apply (Push_appends_in_order 0 1 entry_y w_one 1 contiguous_w_one).
  - vm_compute. split; [discriminate | reflexivity].
  - reflexivity.
  - vm_compute. reflexivity.
Defined.

Lemma pushes_in_order_witness :
  exists w',
    run_methods calls_in_order fresh = Ret tt w' /\
    contiguous (self w') 3 /\
    all_log_entries_ (self w') !! 2 = Some entry_z.
Proof.
  destruct (pushes_in_order calls_in_order fresh 0 contiguous_fresh)
    as (w' & H & Hc & Hget & _).
  - lia.
  - vm_compute. discriminate.
  - intros [|[|[|k]]] m Hk; cbn in Hk; try discriminate Hk;
      injection Hk as <-; do 3 eexists;
      (split; [reflexivity | split; [vm_compute; reflexivity | reflexivity]]).
  - exists w'. split; [exact H | split; [exact Hc |]].
    exact (Hget 2%nat 0 1 entry_z eq_refl).
Defined.

